(** * Chat front-end: message store and streaming accumulation

    A shallow embedding of the stateful core of [src/App.tsx]: the bootstrap
    effect (lines 30-45) and [handleSendMessage] (lines 53-96).

    The React state cells [chat], [messages], [isLoading] and [error] become
    the fields of one record that is threaded through a small state-and-
    exception monad.  What the component receives from outside is passed in
    explicitly: the result of [startChat()], the two readings of
    [Date.now()] and the behaviour of the stream returned by
    [chat.sendMessageStream].  State updates are applied in program order,
    one updater after the other, as React applies queued updaters.

    The updater of the streaming loop (lines 79-83) closes over the mutable
    variable [fullResponse] and reads it when React runs the updater, which
    may be after further chunks have been added to it.  When React gets to
    run the queued updaters is therefore part of what the environment
    supplies, next to the chunks themselves.

    An operation is followed from its start to its end without another
    operation running in between: the bootstrap effect runs once on mount,
    and submissions are taken one after the other.  Submissions that overlap
    in time are not modelled. *)

From stdpp Require Import list strings pretty.
From Stdlib Require Import ZArith Lia Ascii.

Local Open Scope string_scope.
Local Open Scope list_scope.

(** ** Data model ([./types], as used by [App.tsx]) *)

Inductive Role := user | model.

Record Message := mkMessage {
  id : string;
  role : Role;
  text : string;
}.

(** [{ ...msg, text: t }] *)
Definition with_text (msg : Message) (t : string) : Message :=
  {| id := id msg; role := role msg; text := t |}.

(** The session handle of [@google/genai] is opaque to the component. *)
Inductive Chat := ChatSession (session : nat).

(** A thrown JavaScript value; only its identity matters here. *)
Definition Exn := string.

(** ** What the environment supplies *)

(** The async iterable returned by [sendMessageStream], as the loop of
    lines 77-84 lives through it: a finite sequence of chunks (each
    represented by its [text]) that either completes or raises while being
    iterated.  [Flush] marks a moment between two steps of the iteration at
    which React processes its queue of state updates, running the updaters
    queued so far; without one before the next chunk, the updater of an
    iteration is still waiting when that chunk is added to [fullResponse]. *)
Inductive Stream :=
| Done
| Yield (chunk_text : string) (rest : Stream)
| Raise (e : Exn)
| Flush (rest : Stream).

(** The promise returned by [chat.sendMessageStream]. *)
Inductive Response :=
| Rejected (e : Exn)
| Resolved (stream : Stream).

(** One call of [handleSendMessage] reads the clock twice (lines 60 and 66)
    and issues one request (line 74). *)
Record Env := mkEnv {
  now_user : Z;
  now_model : Z;
  reply : Response;
}.

Fixpoint fragments (s : Stream) : list string :=
  match s with
  | Done => []
  | Yield f rest => f :: fragments rest
  | Raise _ => []
  | Flush rest => fragments rest
  end.

Fixpoint raised (s : Stream) : option Exn :=
  match s with
  | Done => None
  | Yield _ rest => raised rest
  | Raise e => Some e
  | Flush rest => raised rest
  end.

(** The fragments a response delivers before it ends. *)
Definition delivered (r : Response) : list string :=
  match r with
  | Rejected _ => []
  | Resolved s => fragments s
  end.

(** The value a response throws, if it does. *)
Definition failure (r : Response) : option Exn :=
  match r with
  | Rejected e => Some e
  | Resolved s => raised s
  end.

Definition succeeds (r : Response) : bool :=
  match failure r with None => true | Some _ => false end.

(** ** Component state *)

(** The four [useState] cells, followed by three logs that record what the
    component did to the outside: the requests it issued, the values it
    passed to [console.error], and every value the message store has been
    set to, oldest first. *)
Record World := mkWorld {
  chat : option Chat;
  messages : list Message;
  isLoading : bool;
  error : option string;
  requests : list string;
  console : list Exn;
  store_log : list (list Message);
}.

(** State on mount (lines 11-14). *)
Definition initial : World :=
  {| chat := None; messages := []; isLoading := false; error := None;
     requests := []; console := []; store_log := [] |}.

(** ** A state-and-exception monad for the component's code *)

Inductive Outcome (A : Type) :=
| Returned (a : A)
| Thrown (e : Exn).
Arguments Returned {A} a.
Arguments Thrown {A} e.

Definition M (A : Type) : Type := World → Outcome A * World.

Global Instance M_ret : MRet M := λ A (a : A) w, (Returned a, w).

Definition throw {A} (e : Exn) : M A := λ w, (Thrown e, w).

Global Instance M_bind : MBind M := λ A B (k : A → M B) (m : M A) w,
  match m w with
  | (Returned a, w1) => k a w1
  | (Thrown e, w1) => (Thrown e, w1)
  end.

(** [try { body } catch (e) { handler } finally { final }] *)
Definition try_catch_finally
    (body : M unit) (handler : Exn → M unit) (final : M unit) : M unit :=
  λ w, match body w with
       | (Returned _, w1) => final w1
       | (Thrown e, w1) =>
           match handler e w1 with
           | (Returned _, w2) => final w2
           | (Thrown e', w2) =>
               match final w2 with
               | (Returned _, w3) => (Thrown e', w3)
               | (Thrown e'', w3) => (Thrown e'', w3)
               end
           end
       end.

(** [try { body } catch (e) { handler }] *)
Definition try_catch (body : M unit) (handler : Exn → M unit) : M unit :=
  try_catch_finally body handler (mret ()).

(** *** State setters and outside calls *)

Definition setChat (c : Chat) : M unit := λ w,
  (Returned (),
   {| chat := Some c; messages := messages w; isLoading := isLoading w;
      error := error w; requests := requests w; console := console w;
      store_log := store_log w |}).

(** [setMessages(updater)] for an updater that reads nothing that changes
    later: the value it gives the store does not depend on when React runs
    it, so it is applied at once. *)
Definition setMessages (updater : list Message → list Message) : M unit :=
  λ w,
  let next := updater (messages w) in
  (Returned (),
   {| chat := chat w; messages := next; isLoading := isLoading w;
      error := error w; requests := requests w; console := console w;
      store_log := store_log w ++ [next] |}).

Definition setIsLoading (b : bool) : M unit := λ w,
  (Returned (),
   {| chat := chat w; messages := messages w; isLoading := b;
      error := error w; requests := requests w; console := console w;
      store_log := store_log w |}).

Definition setError (e : option string) : M unit := λ w,
  (Returned (),
   {| chat := chat w; messages := messages w; isLoading := isLoading w;
      error := e; requests := requests w; console := console w;
      store_log := store_log w |}).

Definition console_error (e : Exn) : M unit := λ w,
  (Returned (),
   {| chat := chat w; messages := messages w; isLoading := isLoading w;
      error := error w; requests := requests w; console := console w ++ [e];
      store_log := store_log w |}).

(** [await chat.sendMessageStream({ message })]: the request goes out, then
    the promise settles the way the environment says. *)
Definition sendMessageStream (r : Response) (message : string) : M Stream :=
  λ w,
  let w1 :=
    {| chat := chat w; messages := messages w; isLoading := isLoading w;
       error := error w; requests := requests w ++ [message];
       console := console w; store_log := store_log w |} in
  match r with
  | Rejected e => (Thrown e, w1)
  | Resolved stream => (Returned stream, w1)
  end.

(** [Number.prototype.toString] on the integer [Date.now()] returns: a time
    value is an integer of magnitude at most 8.64e15, which JavaScript
    prints in plain decimal notation, with a leading [-] below zero. *)
Definition toString (n : Z) : string := pretty n.

(** The call [startChat()] returns or throws as the environment has it. *)
Definition startChat (outcome : Outcome Chat) : M Chat := λ w, (outcome, w).

(** ** Bootstrap (lines 30-45) *)

Definition greeting : Message :=
  {| id := "init"; role := model;
     text := "Hello! How can I assist you today?" |}.

Definition bootstrap_failure_message : string :=
  "Failed to initialize the chat service. Please check your API key.".

(** [setMessages([greeting])] sets the store to a value, whatever it was. *)
Definition bootstrap (outcome : Outcome Chat) : M unit :=
  try_catch
    (chatInstance ← startChat outcome;
     setChat chatInstance;;
     setMessages (λ _, [greeting]))
    (λ e,
     console_error e;;
     setError (Some bootstrap_failure_message)).

(** ** Submission (lines 53-96) *)

Definition stream_failure_text : string := "Sorry, I encountered an error.".

Definition stream_failure_message : string :=
  "An error occurred while getting a response. Please try again.".

(** The updater of lines 80-82 and 89-91:
    [prevMessages.map(msg => msg.id === modelResponseId
                               ? { ...msg, text } : msg)] *)
Definition rewrite_text (modelResponseId : string) (t : string)
    (prevMessages : list Message) : list Message :=
  map (λ msg, if String.eqb (id msg) modelResponseId
              then with_text msg t else msg)
      prevMessages.

(** React runs [queued] waiting updaters of the loop, oldest first.  Each is
    the closure of lines 79-83, and each reads [fullResponse] now. *)
Fixpoint run_queued (modelResponseId : string) (fullResponse : string)
    (queued : nat) : M unit :=
  match queued with
  | 0 => mret ()
  | S queued =>
      setMessages (rewrite_text modelResponseId fullResponse);;
      run_queued modelResponseId fullResponse queued
  end.

(** The [for await] loop of lines 77-84.  [fullResponse] is the variable of
    line 76 as it stands, and [queued] counts the updaters that
    [setMessages] (line 79) has handed to React and React has not run yet.
    An iteration adds its chunk to [fullResponse] and queues one more
    updater.  The waiting updaters run at the next [Flush]; those still
    waiting when the loop ends, normally or by a raise, run when React next
    processes its queue, which is before any update queued after the loop
    (React keeps the order of the queue) and at a time when [fullResponse]
    no longer changes. *)
Fixpoint for_await_queued (modelResponseId : string) (fullResponse : string)
    (queued : nat) (stream : Stream) : M unit :=
  match stream with
  | Done => run_queued modelResponseId fullResponse queued
  | Raise e => run_queued modelResponseId fullResponse queued;; throw e
  | Yield chunk_text rest =>
      let fullResponse := fullResponse +:+ chunk_text in
      for_await_queued modelResponseId fullResponse (S queued) rest
  | Flush rest =>
      run_queued modelResponseId fullResponse queued;;
      for_await_queued modelResponseId fullResponse 0 rest
  end.

(** The loop as it starts: none of its updaters is waiting. *)
Definition for_await (modelResponseId : string) (fullResponse : string)
    (stream : Stream) : M unit :=
  for_await_queued modelResponseId fullResponse 0 stream.

Definition newUserMessage (env : Env) (userMessage : string) : Message :=
  {| id := toString (now_user env); role := user; text := userMessage |}.

Definition modelResponseId (env : Env) : string :=
  "model-" +:+ toString (now_model env).

Definition placeholder (env : Env) : Message :=
  {| id := modelResponseId env; role := model; text := "" |}.

Definition handleSendMessage (env : Env) (userMessage : string) : M unit :=
  λ w,
  match chat w with
  | None => (Returned (), w)
  | Some _ =>
      (setIsLoading true;;
       setError None;;
       setMessages (λ prevMessages,
                      prevMessages ++ [newUserMessage env userMessage]);;
       setMessages (λ prevMessages, prevMessages ++ [placeholder env]);;
       try_catch_finally
         (stream ← sendMessageStream (reply env) userMessage;
          for_await (modelResponseId env) "" stream)
         (λ e,
          console_error e;;
          setError (Some stream_failure_message);;
          setMessages (rewrite_text (modelResponseId env)
                                    stream_failure_text))
         (setIsLoading false)) w
  end.

(** The world after an operation, and whether it threw. *)
Definition after {A} (m : M A) (w : World) : World := snd (m w).

Definition escapes {A} (m : M A) (w : World) : bool :=
  match fst (m w) with Returned _ => false | Thrown _ => true end.

(** A sequence of submissions, each run to completion before the next. *)
Fixpoint submit_all (subs : list (Env * string)) (w : World) : World :=
  match subs with
  | [] => w
  | (env, userMessage) :: rest =>
      submit_all rest (after (handleSendMessage env userMessage) w)
  end.

(** The state after a bootstrap in which [startChat()] returned [c]. *)
Definition bootstrapped (c : Chat) : World :=
  after (bootstrap (Returned c)) initial.

(** ** The snapshots the specification speaks of *)

(** [f1 + f2 + ... + fn] *)
Definition concat_all (fs : list string) : string :=
  foldr String.append "" fs.

(** [[acc+f1, acc+f1+f2, ..., acc+f1+...+fn]] *)
Fixpoint cumulative (acc : string) (fs : list string) : list string :=
  match fs with
  | [] => []
  | f :: fs => (acc +:+ f) :: cumulative (acc +:+ f) fs
  end.

(** The text of the record at position [i] of a store. *)
Definition text_at (i : nat) (store : list Message) : option string :=
  text <$> store !! i.

(** ** Closed forms and vocabulary of the statements *)

(** The texts the loop's updaters write, in the order they run. *)
Fixpoint loop_writes (fullResponse : string) (queued : nat) (s : Stream)
    : list string :=
  match s with
  | Done => replicate queued fullResponse
  | Raise _ => replicate queued fullResponse
  | Yield f rest => loop_writes (fullResponse +:+ f) (S queued) rest
  | Flush rest => replicate queued fullResponse ++ loop_writes fullResponse 0 rest
  end.

(** The texts the updaters of a submission's streaming phase write. *)
Definition stream_writes (r : Response) : list string :=
  match r with
  | Rejected _ => []
  | Resolved s => loop_writes "" 0 s
  end.

(** The world after updaters have written the texts [snaps] in order. *)
Definition streamed (mid : string) (snaps : list string) (w : World) : World :=
  let stores := map (λ t, rewrite_text mid t (messages w)) snaps in
  {| chat := chat w; messages := default (messages w) (last stores);
     isLoading := isLoading w; error := error w; requests := requests w;
     console := console w; store_log := store_log w ++ stores |}.

(** The world a submission leaves behind when a handle is set. *)
Definition settled (env : Env) (userMessage : string) (w : World) : World :=
  let mid := modelResponseId env in
  let base := messages w ++ [newUserMessage env userMessage; placeholder env] in
  let stores :=
    map (λ t, rewrite_text mid t base) (stream_writes (reply env)) in
  match failure (reply env) with
  | None =>
      {| chat := chat w; messages := default base (last stores);
         isLoading := false; error := None;
         requests := requests w ++ [userMessage]; console := console w;
         store_log :=
           store_log w
           ++ [messages w ++ [newUserMessage env userMessage]; base]
           ++ stores |}
  | Some e =>
      {| chat := chat w;
         messages := rewrite_text mid stream_failure_text base;
         isLoading := false; error := Some stream_failure_message;
         requests := requests w ++ [userMessage]; console := console w ++ [e];
         store_log :=
           store_log w
           ++ [messages w ++ [newUserMessage env userMessage]; base]
           ++ stores ++ [rewrite_text mid stream_failure_text base] |}
  end.

(** The text the placeholder ends with. *)
Definition final_text (r : Response) : string :=
  match failure r with
  | Some _ => stream_failure_text
  | None => concat_all (delivered r)
  end.

(** Whether the submission ran the updater at least once. *)
Definition touched (r : Response) : bool :=
  match failure r, delivered r with
  | None, [] => false
  | _, _ => true
  end.

(** What becomes of the records that were in the store before. *)
Definition earlier (env : Env) (before : list Message) : list Message :=
  if touched (reply env)
  then rewrite_text (modelResponseId env) (final_text (reply env)) before
  else before.

Definition user_record (sub : Env * string) : Message :=
  newUserMessage sub.1 sub.2.

Definition model_record (sub : Env * string) (t : string) : Message :=
  with_text (placeholder sub.1) t.

(** One user record immediately followed by one model record per
    submission, in submission order; [texts] are the model records' texts. *)
Fixpoint conversation (subs : list (Env * string)) (texts : list string)
    : list Message :=
  match subs, texts with
  | sub :: subs, t :: texts =>
      user_record sub :: model_record sub t :: conversation subs texts
  | _, _ => []
  end.

(** The texts written into the placeholder, in order: those of the loop's
    updaters, then the failure text if the response throws. *)
Definition text_writes (r : Response) : list string :=
  stream_writes r
  ++ match failure r with Some _ => [stream_failure_text] | None => [] end.

Definition ids_of (sub : Env * string) : list string :=
  [toString (now_user sub.1); modelResponseId sub.1].

Definition created_ids (subs : list (Env * string)) : list string :=
  flat_map ids_of subs.

(** [next] has the records of [prev] at the same positions, with the same
    ids and roles; records whose id is [mid] carry the text [t], all others
    their old text. *)
Definition only_text_changed (mid t : string) (prev next : list Message)
    : Prop :=
  length next = length prev ∧
  ∀ i msg, prev !! i = Some msg →
    ∃ msg', next !! i = Some msg'
      ∧ id msg' = id msg ∧ role msg' = role msg
      ∧ (id msg ≠ mid → msg' = msg)
      ∧ (id msg = mid → text msg' = t).

(** What identifies a record and fixes its place in the conversation. *)
Definition keys (store : list Message) : list (string * Role) :=
  map (λ msg, (id msg, role msg)) store.

(** React runs the updater of every iteration before the next chunk is
    added to [fullResponse]: every [Yield] is followed by a [Flush] or by
    the end of the stream. *)
Fixpoint prompt (s : Stream) : bool :=
  match s with
  | Done => true
  | Raise _ => true
  | Flush rest => prompt rest
  | Yield _ rest =>
      match rest with
      | Yield _ _ => false
      | _ => prompt rest
      end
  end.

(** ** What is rendered (lines 136-153) *)

(** The children of the message column, lines 138-146.  The components
    [ChatMessage] and [TypingIndicator] are opaque; the error banner is the
    [div] of lines 143-145 with its text. *)
Inductive Element :=
| ChatMessage (key : string) (message : Message)
| TypingIndicator
| ErrorBanner (error : string).

(** [messages[messages.length - 1]?.role === 'user']: on an empty store the
    index is out of range, the optional chain yields [undefined], and the
    comparison is false. *)
Definition last_is_user (messages : list Message) : bool :=
  match last messages with
  | Some msg => match role msg with user => true | model => false end
  | None => false
  end.

(** Truthiness of a [string | null]: [null] and the empty string are
    falsy. *)
Definition truthy (error : option string) : bool :=
  match error with
  | None => false
  | Some EmptyString => false
  | Some (String _ _) => true
  end.

(** [{isLoading && ... && <TypingIndicator />}] (line 141) *)
Definition typing_indicator (isLoading : bool) (messages : list Message)
    : list Element :=
  if isLoading && last_is_user messages then [TypingIndicator] else [].

(** [{error && (<div ...>{error}</div>)}] (lines 142-146); a falsy value
    renders nothing. *)
Definition error_banner (error : option string) : list Element :=
  match error with
  | Some e => if truthy error then [ErrorBanner e] else []
  | None => []
  end.

(** What the component shows of its state: the children of the message
    column, and the [isLoading] prop handed to [ChatInput] (line 152). *)
Record View := mkView {
  children : list Element;
  input_isLoading : bool;
}.

Definition render (w : World) : View :=
  {| children :=
       map (λ msg, ChatMessage (id msg) msg) (messages w)
       ++ typing_indicator (isLoading w) (messages w)
       ++ error_banner (error w);
     input_isLoading := isLoading w |}.

(** The store values a submission has written, oldest first. *)
Definition written (w w' : World) : list (list Message) :=
  drop (length (store_log w)) (store_log w').

(** * Lemmas *)

(** ** Strings *)

Lemma append_cons (c : ascii) (s t : string) :
  String c s +:+ t = String c (s +:+ t).
Proof. reflexivity. Qed.

Lemma append_nil_l (s : string) : "" +:+ s = s.
Proof. reflexivity. Qed.

Lemma append_nil_r (s : string) : s +:+ "" = s.
Proof.
  induction s as [|c s IH]; [done|]. by rewrite append_cons, IH.
Qed.

Lemma append_assoc (s1 s2 s3 : string) :
  (s1 +:+ s2) +:+ s3 = s1 +:+ (s2 +:+ s3).
Proof.
  induction s1 as [|c s1 IH]; [done|]. by rewrite !append_cons, IH.
Qed.

Lemma concat_all_app (fs gs : list string) :
  concat_all (fs ++ gs) = concat_all fs +:+ concat_all gs.
Proof.
  induction fs as [|f fs IH]; simpl; [done|].
  by rewrite IH, append_assoc.
Qed.

Lemma cumulative_length acc fs : length (cumulative acc fs) = length fs.
Proof. revert acc. induction fs as [|f fs IH]; intros acc; simpl; auto. Qed.

(** The [k]-th snapshot is the accumulator followed by the first [k+1]
    fragments. *)
Lemma cumulative_lookup acc fs k :
  k < length fs →
  cumulative acc fs !! k = Some (acc +:+ concat_all (take (S k) fs)).
Proof.
  revert acc k. induction fs as [|f fs IH]; intros acc k Hk; simpl in *.
  - lia.
  - destruct k as [|k]; simpl.
    + unfold concat_all. simpl. by rewrite append_nil_r.
    + rewrite IH by lia. unfold concat_all. simpl. by rewrite append_assoc.
Qed.

Lemma cumulative_last acc fs :
  fs ≠ [] → last (cumulative acc fs) = Some (acc +:+ concat_all fs).
Proof.
  intros Hne. rewrite last_lookup, cumulative_length.
  destruct fs as [|f fs]; [done|]. simpl length. simpl pred.
  rewrite cumulative_lookup by (simpl; lia).
  by rewrite take_ge by (simpl; lia).
Qed.

(** *** Shape of the ids the component creates *)

Lemma pretty_N_go_head (c : ascii) x s s' :
  (∀ d, pretty_N_char d ≠ c) →
  s ≠ String c s' → pretty_N_go x s ≠ String c s'.
Proof.
  intros Hc. revert s. induction (N.lt_wf_0 x) as [x _ IH]; intros s Hs.
  assert (x = 0 ∨ 0 < x)%N as [->|Hx] by lia.
  - by rewrite pretty_N_go_0.
  - rewrite pretty_N_go_step by done. apply IH.
    + by apply N.div_lt.
    + intros [= Heq _]. by apply (Hc (x `mod` 10)%N).
Qed.

Lemma toString_head (c : ascii) (n : Z) s :
  (∀ d, pretty_N_char d ≠ c) → c ≠ "-"%char →
  toString n ≠ String c s.
Proof.
  intros Hc Hdash. unfold toString, pretty, pretty_Z.
  destruct n as [|q|q].
  - intros [= Heq _]. by apply (Hc 0%N).
  - unfold pretty, pretty_positive, pretty, pretty_N.
    case_decide; [done|]. by apply pretty_N_go_head.
  - simpl. intros [= Heq _]. by apply Hdash.
Qed.

Lemma digit_not_m d : pretty_N_char d ≠ "m"%char.
Proof. unfold pretty_N_char. by repeat case_match. Qed.

Lemma digit_not_i d : pretty_N_char d ≠ "i"%char.
Proof. unfold pretty_N_char. by repeat case_match. Qed.

(** A decimal number never starts with the letter of the [model-] prefix. *)
Lemma user_id_not_model_id (t : Z) (s : string) :
  toString t ≠ "model-" +:+ s.
Proof. simpl. by apply toString_head; [apply digit_not_m|]. Qed.

Lemma user_id_not_init (t : Z) : toString t ≠ "init".
Proof. by apply toString_head; [apply digit_not_i|]. Qed.

Lemma init_not_model_id (s : string) : "init" ≠ "model-" +:+ s.
Proof. done. Qed.

Global Instance toString_inj : Inj (=) (=) toString.
Proof. unfold toString. apply _. Qed.

Lemma modelResponseId_inj env1 env2 :
  modelResponseId env1 = modelResponseId env2 →
  now_model env1 = now_model env2.
Proof.
  unfold modelResponseId. intros Heq.
  apply (inj (String.append "model-")) in Heq. by apply (inj toString).
Qed.

(** ** The store updater *)

Section rewrite_text.
Variable mid : string.

Lemma rewrite_text_length t l : length (rewrite_text mid t l) = length l.
Proof. unfold rewrite_text. by rewrite length_map. Qed.

Lemma rewrite_text_lookup t (l : list Message) i :
  rewrite_text mid t l !! i =
  (λ msg, if String.eqb (id msg) mid then with_text msg t else msg)
    <$> l !! i.
Proof. unfold rewrite_text. by rewrite list_lookup_fmap. Qed.

Lemma rewrite_text_ids t l : map id (rewrite_text mid t l) = map id l.
Proof.
  unfold rewrite_text. rewrite map_map. apply map_ext.
  intros msg. by destruct (String.eqb (id msg) mid).
Qed.

Lemma rewrite_text_roles t l : map role (rewrite_text mid t l) = map role l.
Proof.
  unfold rewrite_text. rewrite map_map. apply map_ext.
  intros msg. by destruct (String.eqb (id msg) mid).
Qed.

Lemma rewrite_text_app t l1 l2 :
  rewrite_text mid t (l1 ++ l2) =
  rewrite_text mid t l1 ++ rewrite_text mid t l2.
Proof. unfold rewrite_text. by rewrite map_app. Qed.

(** A later rewrite replaces an earlier one. *)
Lemma rewrite_text_twice t1 t2 l :
  rewrite_text mid t2 (rewrite_text mid t1 l) = rewrite_text mid t2 l.
Proof.
  unfold rewrite_text. rewrite map_map. apply map_ext. intros msg.
  destruct (String.eqb (id msg) mid) eqn:E; simpl; by rewrite E.
Qed.

Lemma rewrite_text_fresh t l :
  Forall (λ msg, id msg ≠ mid) l → rewrite_text mid t l = l.
Proof.
  induction 1 as [|msg l Hne _ IH]; [done|].
  unfold rewrite_text in *. simpl. rewrite IH.
  apply String.eqb_neq in Hne. by rewrite Hne.
Qed.

Lemma rewrite_text_other t msg :
  id msg ≠ mid → rewrite_text mid t [msg] = [msg].
Proof. intros Hne. apply rewrite_text_fresh. by constructor. Qed.

Lemma rewrite_text_hit t msg :
  id msg = mid → rewrite_text mid t [msg] = [with_text msg t].
Proof.
  intros Heq. apply String.eqb_eq in Heq.
  unfold rewrite_text. simpl. by rewrite Heq.
Qed.
End rewrite_text.

(** ** Closed forms of the loop and of a submission *)

(** Writing one list of texts after another is writing their
    concatenation: each rewrite starts from the ids of the same store. *)
Lemma streamed_streamed mid snaps1 snaps2 w :
  streamed mid snaps2 (streamed mid snaps1 w) = streamed mid (snaps1 ++ snaps2) w.
Proof.
  unfold streamed. simpl.
  set (stores1 := map (λ t, rewrite_text mid t (messages w)) snaps1).
  assert (map (λ t, rewrite_text mid t (default (messages w) (last stores1)))
            snaps2
          = map (λ t, rewrite_text mid t (messages w)) snaps2) as ->.
  { apply map_ext. intros t.
    destruct (last stores1) as [l|] eqn:Hlast; simpl; [|done].
    apply last_Some_elem_of, list_elem_of_fmap in Hlast.
    destruct Hlast as (t' & -> & _). apply rewrite_text_twice. }
  rewrite map_app. fold stores1.
  set (stores2 := map (λ t, rewrite_text mid t (messages w)) snaps2).
  f_equal.
  - rewrite last_app. by destruct (last stores2).
  - by rewrite <- app_assoc.
Qed.

Lemma streamed_nil mid w : streamed mid [] w = w.
Proof. destruct w. unfold streamed. simpl. by rewrite app_nil_r. Qed.

Lemma run_queued_run mid full queued w :
  run_queued mid full queued w
  = (Returned (), streamed mid (replicate queued full) w).
Proof.
  revert w. induction queued as [|queued IH]; intros w.
  - by rewrite streamed_nil.
  - simpl run_queued. unfold mbind, M_bind, setMessages. rewrite IH.
    f_equal. change (replicate (S queued) full)
      with ([full] ++ replicate queued full).
    by rewrite <- streamed_streamed.
Qed.

Lemma for_await_queued_run mid full queued s w :
  for_await_queued mid full queued s w =
  (match raised s with None => Returned () | Some e => Thrown e end,
   streamed mid (loop_writes full queued s) w).
Proof.
  revert full queued w.
  induction s as [|f rest IH|e|rest IH]; intros full queued w; simpl.
  - apply run_queued_run.
  - apply IH.
  - unfold mbind, M_bind. by rewrite run_queued_run.
  - unfold mbind, M_bind. by rewrite run_queued_run, IH, streamed_streamed.
Qed.

Lemma for_await_run mid full s w :
  for_await mid full s w =
  (match raised s with None => Returned () | Some e => Thrown e end,
   streamed mid (loop_writes full 0 s) w).
Proof. apply for_await_queued_run. Qed.

(** One write per updater. *)
Lemma loop_writes_length full queued s :
  length (loop_writes full queued s) = queued + length (fragments s).
Proof.
  revert full queued.
  induction s as [|f rest IH|e|rest IH]; intros full queued; simpl.
  - rewrite length_replicate. lia.
  - rewrite IH. lia.
  - rewrite length_replicate. lia.
  - rewrite length_app, length_replicate, IH. lia.
Qed.

(** The last updater to run reads the complete text. *)
Lemma loop_writes_last full queued s :
  queued + length (fragments s) ≠ 0 →
  last (loop_writes full queued s) = Some (full +:+ concat_all (fragments s)).
Proof.
  revert full queued.
  induction s as [|f rest IH|e|rest IH]; intros full queued Hne; simpl in *.
  - destruct queued as [|queued]; [lia|].
    rewrite replicate_S_end, last_snoc. by rewrite append_nil_r.
  - rewrite IH by lia. unfold concat_all. simpl. by rewrite append_assoc.
  - destruct queued as [|queued]; [lia|].
    rewrite replicate_S_end, last_snoc. by rewrite append_nil_r.
  - rewrite last_app.
    destruct (fragments rest) as [|f fs] eqn:Hfs.
    + assert (loop_writes full 0 rest = []) as ->.
      { apply length_zero_iff_nil. rewrite loop_writes_length, Hfs. done. }
      simpl. destruct queued as [|queued]; [simpl in Hne; lia|].
      rewrite replicate_S_end, last_snoc. by rewrite append_nil_r.
    + rewrite IH by (simpl; lia). done.
Qed.

Lemma stream_writes_length r :
  length (stream_writes r) = length (delivered r).
Proof. destruct r as [e|s]; [done|]. apply loop_writes_length. Qed.

Lemma stream_writes_last r :
  delivered r ≠ [] →
  last (stream_writes r) = Some (concat_all (delivered r)).
Proof.
  destruct r as [e|s]; [done|]. simpl. intros Hne.
  rewrite loop_writes_last; [done|].
  destruct (fragments s); [done|simpl; lia].
Qed.

Lemma handleSendMessage_run env userMessage w c :
  chat w = Some c →
  handleSendMessage env userMessage w = (Returned (), settled env userMessage w).
Proof.
  intros Hchat. unfold handleSendMessage. rewrite Hchat.
  unfold settled, try_catch_finally, mbind, M_bind.
  destruct (reply env) as [e|s] eqn:Hreply; simpl.
  - rewrite <- !app_assoc. simpl. done.
  - rewrite for_await_run. unfold streamed. simpl.
    rewrite <- !app_assoc. simpl.
    destruct (raised s) as [e|]; simpl.
    + set (base := messages w ++ _).
      set (stores := map _ (loop_writes "" 0 s)).
      assert (rewrite_text (modelResponseId env) stream_failure_text
                (default base (last stores))
              = rewrite_text (modelResponseId env) stream_failure_text base)
        as ->; [|done].
      destruct (last stores) as [l|] eqn:Hlast; simpl; [|done].
      apply last_Some_elem_of, list_elem_of_fmap in Hlast.
      destruct Hlast as (t & -> & _). apply rewrite_text_twice.
    + done.
Qed.

(** *** The store a submission leaves behind *)

Lemma rewrite_base env userMessage t before :
  rewrite_text (modelResponseId env) t
    (before ++ [newUserMessage env userMessage; placeholder env])
  = rewrite_text (modelResponseId env) t before
    ++ [newUserMessage env userMessage; with_text (placeholder env) t].
Proof.
  rewrite rewrite_text_app. f_equal.
  change [newUserMessage env userMessage; placeholder env]
    with ([newUserMessage env userMessage] ++ [placeholder env]).
  rewrite rewrite_text_app, rewrite_text_other, rewrite_text_hit; [done..|].
  apply user_id_not_model_id.
Qed.

Lemma settled_messages env userMessage w :
  messages (settled env userMessage w)
  = earlier env (messages w)
    ++ [newUserMessage env userMessage;
        with_text (placeholder env) (final_text (reply env))].
Proof.
  unfold settled, earlier, touched, final_text.
  destruct (failure (reply env)) as [e|]; simpl.
  - apply rewrite_base.
  - destruct (delivered (reply env)) as [|f fs] eqn:Hd.
    + assert (stream_writes (reply env) = []) as ->; [|done].
      apply length_zero_iff_nil. by rewrite stream_writes_length, Hd.
    + rewrite <- Hd.
      assert (delivered (reply env) ≠ []) as Hne by (by rewrite Hd).
      rewrite fmap_last, (stream_writes_last _ Hne). simpl.
      apply rewrite_base.
Qed.

Lemma earlier_length env before : length (earlier env before) = length before.
Proof.
  unfold earlier. destruct (touched _); [apply rewrite_text_length|done].
Qed.

Lemma earlier_fresh env before :
  Forall (λ msg, id msg ≠ modelResponseId env) before →
  earlier env before = before.
Proof.
  intros Hfresh. unfold earlier.
  destruct (touched _); [by apply rewrite_text_fresh|done].
Qed.

(** Unfolding one submission of a sequence. *)
Lemma submit_all_cons env userMessage rest w c :
  chat w = Some c →
  submit_all ((env, userMessage) :: rest) w
  = submit_all rest (settled env userMessage w).
Proof.
  intros Hchat. simpl. unfold after.
  by rewrite (handleSendMessage_run _ _ _ _ Hchat).
Qed.

Lemma settled_chat env userMessage w : chat (settled env userMessage w) = chat w.
Proof. unfold settled. by destruct (failure _). Qed.

Lemma bootstrapped_eq c :
  bootstrapped c =
  {| chat := Some c; messages := [greeting]; isLoading := false;
     error := None; requests := []; console := [];
     store_log := [[greeting]] |}.
Proof. reflexivity. Qed.

(** ** The shape of the store after a sequence of submissions *)

Lemma conversation_length subs texts :
  length texts = length subs →
  length (conversation subs texts) = 2 * length subs.
Proof.
  revert texts. induction subs as [|sub subs IH]; intros [|t texts] Hlen;
    simpl in *; try lia.
  rewrite IH by lia. lia.
Qed.

Lemma conversation_snoc subs texts sub t :
  length texts = length subs →
  conversation (subs ++ [sub]) (texts ++ [t])
  = conversation subs texts ++ [user_record sub; model_record sub t].
Proof.
  revert texts. induction subs as [|sub' subs IH]; intros [|t' texts] Hlen;
    simpl in *; try lia; [done|].
  rewrite IH by lia. done.
Qed.

(** Rewriting by a placeholder id changes nothing but model texts. *)
Lemma rewrite_conversation env t subs texts :
  length texts = length subs →
  ∃ texts', length texts' = length subs ∧
    rewrite_text (modelResponseId env) t (conversation subs texts)
    = conversation subs texts'.
Proof.
  revert texts. induction subs as [|sub subs IH]; intros [|t0 texts] Hlen;
    simpl in Hlen; try lia.
  - by exists [].
  - destruct (IH texts) as (texts' & Hlen' & Heq); [lia|].
    change (conversation (sub :: subs) (t0 :: texts))
      with ([user_record sub] ++ [model_record sub t0]
            ++ conversation subs texts).
    rewrite !rewrite_text_app, Heq, rewrite_text_other
      by apply user_id_not_model_id.
    destruct (decide (id (model_record sub t0) = modelResponseId env))
      as [Hhit|Hmiss].
    + rewrite rewrite_text_hit by done.
      exists (t :: texts'). split; [simpl; lia|done].
    + rewrite rewrite_text_other by done.
      exists (t0 :: texts'). split; [simpl; lia|done].
Qed.

Lemma earlier_conversation env subs texts :
  length texts = length subs →
  ∃ texts', length texts' = length subs ∧
    earlier env (greeting :: conversation subs texts)
    = greeting :: conversation subs texts'.
Proof.
  intros Hlen. unfold earlier. destruct (touched _); [|by exists texts].
  destruct (rewrite_conversation env (final_text (reply env)) subs texts Hlen)
    as (texts' & Hlen' & Heq).
  exists texts'. split; [done|].
  change (greeting :: conversation subs texts)
    with ([greeting] ++ conversation subs texts).
  rewrite rewrite_text_app, Heq, rewrite_text_other; [done|].
  apply init_not_model_id.
Qed.

Lemma submit_all_chat subs w : chat (submit_all subs w) = chat w.
Proof.
  revert w. induction subs as [|[env um] subs IH]; intros w; [done|].
  destruct (chat w) as [c|] eqn:Hchat.
  - by rewrite (submit_all_cons _ _ _ _ _ Hchat), IH, settled_chat.
  - simpl. unfold after, handleSendMessage. rewrite Hchat. simpl.
    by rewrite IH.
Qed.

Lemma submit_all_conversation subs : ∀ w c done texts,
  chat w = Some c →
  length texts = length done →
  messages w = greeting :: conversation done texts →
  ∃ texts', length texts' = length (done ++ subs) ∧
    messages (submit_all subs w)
    = greeting :: conversation (done ++ subs) texts'.
Proof.
  induction subs as [|[env um] subs IH]; intros w c done texts Hchat Hlen Hw.
  - exists texts. by rewrite app_nil_r.
  - rewrite (submit_all_cons _ _ _ _ _ Hchat).
    destruct (earlier_conversation env done texts Hlen)
      as (texts1 & Hlen1 & Hearlier).
    destruct (IH (settled env um w) c (done ++ [(env, um)])
                 (texts1 ++ [final_text (reply env)]))
      as (texts' & Hlen' & Heq).
    + by rewrite settled_chat.
    + rewrite !length_app. simpl. lia.
    + rewrite settled_messages, Hw, Hearlier.
      by rewrite (conversation_snoc _ _ (env, um)).
    + exists texts'. by rewrite <- app_assoc in Hlen', Heq.
Qed.

(** Successful submissions leave no error and no pending load behind. *)
Lemma submit_all_success_flags subs : ∀ w c,
  chat w = Some c → error w = None → isLoading w = false →
  Forall (λ sub, succeeds (reply sub.1) = true) subs →
  error (submit_all subs w) = None ∧ isLoading (submit_all subs w) = false.
Proof.
  induction subs as [|[env um] subs IH]; intros w c Hchat Herr Hload Hall.
  - done.
  - rewrite (submit_all_cons _ _ _ _ _ Hchat).
    inversion Hall as [|? ? Hok Hrest]; subst. simpl in Hok.
    apply (IH _ c); [by rewrite settled_chat|..|done];
      unfold settled, succeeds in *; by destruct (failure (reply env)).
Qed.

(** *** What a submission writes to the store, update by update *)

Lemma settled_log env userMessage w :
  let base :=
    messages w ++ [newUserMessage env userMessage; placeholder env] in
  store_log (settled env userMessage w)
  = store_log w
    ++ [messages w ++ [newUserMessage env userMessage]; base]
    ++ map (λ t, rewrite_text (modelResponseId env) t base)
           (text_writes (reply env)).
Proof.
  unfold settled, text_writes. destruct (failure (reply env)); simpl.
  - by rewrite map_app.
  - by rewrite app_nil_r.
Qed.

(** The placeholder sits right after the user record, and an update gives
    it exactly the text passed to the updater. *)
Lemma placeholder_text_at env userMessage t before :
  text_at (S (length before))
    (rewrite_text (modelResponseId env) t
       (before ++ [newUserMessage env userMessage; placeholder env]))
  = Some t.
Proof.
  rewrite rewrite_base. unfold text_at.
  rewrite lookup_app_r by (rewrite rewrite_text_length; lia).
  rewrite rewrite_text_length.
  by replace (S (length before) - length before) with 1 by lia.
Qed.

Lemma settled_escapes env userMessage w c :
  chat w = Some c → escapes (handleSendMessage env userMessage) w = false.
Proof.
  intros Hchat. unfold escapes.
  by rewrite (handleSendMessage_run _ _ _ _ Hchat).
Qed.

Lemma settled_after env userMessage w c :
  chat w = Some c →
  after (handleSendMessage env userMessage) w = settled env userMessage w.
Proof.
  intros Hchat. unfold after.
  by rewrite (handleSendMessage_run _ _ _ _ Hchat).
Qed.

(** Replaces a submission made with a handle by its closed form. *)
Ltac settle Hchat :=
  rewrite ?(settled_after _ _ _ _ Hchat), ?(settled_escapes _ _ _ _ Hchat).

(** No operation of the component lets an exception through. *)
Lemma handleSendMessage_never_throws env userMessage w :
  escapes (handleSendMessage env userMessage) w = false.
Proof.
  destruct (chat w) as [c|] eqn:Hchat; [by apply (settled_escapes _ _ _ c)|].
  unfold escapes, handleSendMessage. by rewrite Hchat.
Qed.

Lemma bootstrap_never_throws outcome w :
  escapes (bootstrap outcome) w = false.
Proof. by destruct outcome. Qed.

(** ** Which ids a sequence of submissions creates *)

Lemma conversation_ids subs texts :
  length texts = length subs →
  map id (conversation subs texts) = created_ids subs.
Proof.
  revert texts. induction subs as [|sub subs IH]; intros [|t texts] Hlen;
    simpl in Hlen; try lia; [done|].
  simpl. rewrite IH by lia. done.
Qed.

Lemma submitted_ids c subs :
  map id (messages (submit_all subs (bootstrapped c)))
  = "init" :: created_ids subs.
Proof.
  destruct (submit_all_conversation subs (bootstrapped c) c [] [])
    as (texts & Hlen & Heq); [done..|].
  simpl in Hlen, Heq. rewrite Heq. simpl. by rewrite conversation_ids.
Qed.

Lemma user_id_created t subs :
  toString t ∈ created_ids subs ↔ t ∈ map (λ sub, now_user sub.1) subs.
Proof.
  induction subs as [|sub subs IH]; simpl.
  - by rewrite !elem_of_nil.
  - rewrite !elem_of_cons, IH. split.
    + intros [Heq|[Heq|Hin]]; [left; by apply (inj toString)| |by right].
      by apply user_id_not_model_id in Heq.
    + intros [->|Hin]; [by left|by right; right].
Qed.

Lemma model_id_created env subs :
  modelResponseId env ∈ created_ids subs
  ↔ now_model env ∈ map (λ sub, now_model sub.1) subs.
Proof.
  induction subs as [|sub subs IH]; simpl.
  - by rewrite !elem_of_nil.
  - rewrite !elem_of_cons, IH. split.
    + intros [Heq|[Heq|Hin]]; [|left; by apply modelResponseId_inj|by right].
      symmetry in Heq. by apply user_id_not_model_id in Heq.
    + intros [Heq|Hin]; [right; left|by right; right].
      unfold modelResponseId. by rewrite Heq.
Qed.

Lemma init_not_created subs : "init" ∉ created_ids subs.
Proof.
  induction subs as [|sub subs IH]; simpl.
  - apply not_elem_of_nil.
  - rewrite !not_elem_of_cons. split; [|split; [|done]].
    + intros Heq. symmetry in Heq. by apply user_id_not_init in Heq.
    + apply init_not_model_id.
Qed.

Lemma created_ids_NoDup subs :
  NoDup (created_ids subs)
  ↔ NoDup (map (λ sub, now_user sub.1) subs)
    ∧ NoDup (map (λ sub, now_model sub.1) subs).
Proof.
  induction subs as [|sub subs IH]; simpl.
  - split; [intros _; split; constructor | intros _; constructor].
  - rewrite !NoDup_cons, IH, !not_elem_of_cons.
    change (modelResponseId sub.1 ∈ flat_map ids_of subs)
      with (modelResponseId sub.1 ∈ created_ids subs).
    change (toString (now_user sub.1) ∈ flat_map ids_of subs)
      with (toString (now_user sub.1) ∈ created_ids subs).
    rewrite user_id_created, model_id_created.
    pose proof (user_id_not_model_id (now_user sub.1)
                  (toString (now_model sub.1))) as Hne.
    unfold modelResponseId at 1. tauto.
Qed.

(** The ids in the store are pairwise different exactly when no two
    submissions read the same clock value at line 60, and no two read the
    same value at line 66. *)
Lemma ids_unique_iff c subs :
  NoDup (map id (messages (submit_all subs (bootstrapped c))))
  ↔ NoDup (map (λ sub, now_user sub.1) subs)
    ∧ NoDup (map (λ sub, now_model sub.1) subs).
Proof.
  rewrite submitted_ids, NoDup_cons, created_ids_NoDup.
  pose proof (init_not_created subs). tauto.
Qed.

(** ** Frame of a store update *)

Lemma rewrite_text_frame mid t prev :
  only_text_changed mid t prev (rewrite_text mid t prev).
Proof.
  split; [apply rewrite_text_length|].
  intros i msg Hi. rewrite rewrite_text_lookup, Hi. simpl.
  destruct (String.eqb (id msg) mid) eqn:E.
  - apply String.eqb_eq in E.
    exists (with_text msg t). repeat split; try done.
  - apply String.eqb_neq in E.
    exists msg. repeat split; try done.
Qed.

Lemma rewrite_text_keys mid t store :
  keys (rewrite_text mid t store) = keys store.
Proof.
  unfold keys, rewrite_text. rewrite map_map. apply map_ext.
  intros msg. by destruct (String.eqb (id msg) mid).
Qed.

Lemma keys_app l1 l2 : keys (l1 ++ l2) = keys l1 ++ keys l2.
Proof. unfold keys. by rewrite map_app. Qed.

(** Consecutive stores of the streaming phase differ by one rewrite. *)
Lemma consecutive_updates mid base (snaps : list string) k prev next :
  (base :: map (λ t, rewrite_text mid t base) snaps) !! k = Some prev →
  map (λ t, rewrite_text mid t base) snaps !! k = Some next →
  ∃ t, snaps !! k = Some t ∧ next = rewrite_text mid t prev.
Proof.
  intros Hprev Hnext.
  apply list_lookup_fmap_Some in Hnext as (t & -> & Ht).
  exists t. split; [done|].
  destruct k as [|k]; simpl in Hprev.
  - by injection Hprev as <-.
  - apply list_lookup_fmap_Some in Hprev as (t' & -> & _).
    by rewrite rewrite_text_twice.
Qed.

(** * Verified properties *)

(** ** Bootstrap *)

(** Claim C6.  If [startChat()] throws during bootstrap, the exception stops
    at the bootstrap effect: the message store stays empty and is never
    written (no greeting), the error banner carries the fixed
    bootstrap-failure message, the thrown value is logged, and the handle
    stays unset, so that every later submission does nothing. *)
Theorem bootstrap_failure_is_contained (e : Exn) :
  let w := after (bootstrap (Thrown e)) initial in
  escapes (bootstrap (Thrown e)) initial = false
  ∧ messages w = []
  ∧ store_log w = []
  ∧ error w
    = Some "Failed to initialize the chat service. Please check your API key."
  ∧ chat w = None
  ∧ isLoading w = false
  ∧ console w = [e]
  ∧ ∀ env userMessage,
      handleSendMessage env userMessage w = (Returned (), w).
Proof. repeat split. Qed.

(** ** Submission *)

(** Claim C7.  With no session handle, a submission of any text is a no-op:
    it returns at once and leaves the whole state as it was, in particular
    the message store, the loading flag and the error flag, and it issues no
    stream request. *)
Theorem submission_without_handle_is_noop env userMessage w :
  chat w = None →
  let w' := after (handleSendMessage env userMessage) w in
  w' = w
  ∧ escapes (handleSendMessage env userMessage) w = false
  ∧ messages w' = messages w
  ∧ isLoading w' = isLoading w
  ∧ error w' = error w
  ∧ requests w' = requests w
  ∧ store_log w' = store_log w.
Proof.
  intros Hchat. unfold after, escapes, handleSendMessage.
  rewrite Hchat. simpl. repeat split.
Qed.

Lemma submission_without_handle_is_noop_witness :
  chat initial = None
  ∧ after (handleSendMessage (mkEnv 1000 1000 (Resolved (Yield "Hi" Done)))
             "Hello") initial
    = initial.
Proof.
  split; [reflexivity|].
  apply (submission_without_handle_is_noop
           (mkEnv 1000 1000 (Resolved (Yield "Hi" Done))) "Hello" initial).
  reflexivity.
Defined.

(** Claim C8.  Submitting "Hello" against a handle whose stream yields "Hi"
    and then " there!" and completes: the store ends with the record
    [{role: user, text: "Hello"}] immediately followed by
    [{role: model, text: "Hi there!"}], the loading flag is false and the
    error flag is null.  This holds from every state with a handle, for
    every pair of clock readings, and whenever React gets to run the
    updaters while the two fragments arrive. *)
Theorem hello_scenario w c (t1 t2 : Z) (s : Stream) :
  chat w = Some c →
  fragments s = ["Hi"; " there!"] →
  raised s = None →
  let env := mkEnv t1 t2 (Resolved s) in
  let w' := after (handleSendMessage env "Hello") w in
  messages w'
  = rewrite_text (modelResponseId env) "Hi there!" (messages w)
    ++ [ {| id := toString t1; role := user; text := "Hello" |};
         {| id := "model-" +:+ toString t2; role := model;
            text := "Hi there!" |} ]
  ∧ isLoading w' = false
  ∧ error w' = None
  ∧ escapes (handleSendMessage env "Hello") w = false.
Proof.
  intros Hchat Hfrag Hdone env w'. subst w'.
  settle Hchat.
  rewrite settled_messages.
  assert (failure (reply env) = None) as Hok by exact Hdone.
  assert (delivered (reply env) = ["Hi"; " there!"]) as Hd by exact Hfrag.
  unfold settled, earlier, touched, final_text.
  rewrite Hok, Hd. repeat split.
Qed.

Lemma hello_scenario_witness :
  chat (bootstrapped (ChatSession 0)) = Some (ChatSession 0)
  ∧ fragments (Yield "Hi" (Yield " there!" Done)) = ["Hi"; " there!"]
  ∧ raised (Yield "Hi" (Yield " there!" Done)) = None
  ∧ messages
      (after (handleSendMessage
                (mkEnv 1000 1000 (Resolved (Yield "Hi" (Yield " there!" Done))))
                "Hello")
             (bootstrapped (ChatSession 0)))
    = [ greeting;
        {| id := "1000"; role := user; text := "Hello" |};
        {| id := "model-1000"; role := model; text := "Hi there!" |} ].
Proof.
  split; [reflexivity|]. split; [reflexivity|]. split; [reflexivity|].
  destruct (hello_scenario (bootstrapped (ChatSession 0)) (ChatSession 0)
              1000 1000 (Yield "Hi" (Yield " there!" Done))
              eq_refl eq_refl eq_refl) as (Hstore & _).
  rewrite Hstore. vm_compute. reflexivity.
Defined.

(** Claim C9.  When the stream completes without having yielded a fragment,
    the placeholder stays in the store with the empty text it was created
    with, right after the user record; the loading flag is cleared and the
    error flag is null. *)
Theorem empty_stream_keeps_placeholder env userMessage w c :
  chat w = Some c →
  succeeds (reply env) = true →
  delivered (reply env) = [] →
  let w' := after (handleSendMessage env userMessage) w in
  messages w'
  = messages w
    ++ [ newUserMessage env userMessage;
         {| id := modelResponseId env; role := model; text := "" |} ]
  ∧ isLoading w' = false
  ∧ error w' = None
  ∧ escapes (handleSendMessage env userMessage) w = false.
Proof.
  intros Hchat Hok Hnone w'. subst w'.
  settle Hchat.
  unfold succeeds in Hok. unfold settled.
  destruct (failure (reply env)); [done|].
  assert (stream_writes (reply env) = []) as ->.
  { apply length_zero_iff_nil. by rewrite stream_writes_length, Hnone. }
  repeat split.
Qed.

Lemma empty_stream_keeps_placeholder_witness :
  chat (bootstrapped (ChatSession 0)) = Some (ChatSession 0)
  ∧ succeeds (Resolved Done) = true
  ∧ delivered (Resolved Done) = []
  ∧ messages
      (after (handleSendMessage (mkEnv 1000 1001 (Resolved Done)) "X")
             (bootstrapped (ChatSession 0)))
    = [ greeting;
        {| id := "1000"; role := user; text := "X" |};
        {| id := "model-1001"; role := model; text := "" |} ].
Proof.
  split; [reflexivity|]. split; [reflexivity|]. split; [reflexivity|].
  destruct (empty_stream_keeps_placeholder
              (mkEnv 1000 1001 (Resolved Done)) "X"
              (bootstrapped (ChatSession 0)) (ChatSession 0)
              eq_refl eq_refl eq_refl) as (Hstore & _).
  rewrite Hstore. vm_compute. reflexivity.
Defined.

(** Claim C2.  When the response throws, whether the request is rejected or
    the stream raises after any number of fragments, the exception does not
    leave the submission; the placeholder, the last record of the store,
    ends with the fixed text "Sorry, I encountered an error." whatever had
    been accumulated in it; the error flag is set to the generic message and
    the loading flag is cleared. *)
Theorem stream_failure_overwrites_placeholder env userMessage w c e :
  chat w = Some c →
  failure (reply env) = Some e →
  let w' := after (handleSendMessage env userMessage) w in
  let p := S (length (messages w)) in
  escapes (handleSendMessage env userMessage) w = false
  ∧ last (messages w')
    = Some {| id := modelResponseId env; role := model;
              text := "Sorry, I encountered an error." |}
  ∧ text_at p (messages w') = Some "Sorry, I encountered an error."
  ∧ error w'
    = Some "An error occurred while getting a response. Please try again."
  ∧ error w' ≠ None
  ∧ isLoading w' = false
  ∧ console w' = console w ++ [e].
Proof.
  intros Hchat Hfail w' p. subst w' p.
  settle Hchat.
  rewrite settled_messages.
  unfold final_text. rewrite Hfail.
  split; [done|]. split; [by rewrite last_app|]. split.
  { unfold text_at.
    rewrite lookup_app_r by (rewrite earlier_length; lia).
    rewrite earlier_length.
    by replace (S (length (messages w)) - length (messages w)) with 1 by lia. }
  unfold settled. rewrite Hfail. repeat split. done.
Qed.

Lemma stream_failure_overwrites_placeholder_witness :
  chat (bootstrapped (ChatSession 0)) = Some (ChatSession 0)
  ∧ failure (Resolved (Yield "f1" (Yield "f2" (Raise "network")))) = Some "network"
  ∧ text_at 2
      (messages
         (after (handleSendMessage
                   (mkEnv 1000 1000
                      (Resolved (Yield "f1" (Yield "f2" (Raise "network")))))
                   "X")
                (bootstrapped (ChatSession 0))))
    = Some "Sorry, I encountered an error.".
Proof.
  split; [reflexivity|]. split; [reflexivity|].
  destruct (stream_failure_overwrites_placeholder
              (mkEnv 1000 1000
                 (Resolved (Yield "f1" (Yield "f2" (Raise "network")))))
              "X" (bootstrapped (ChatSession 0)) (ChatSession 0) "network"
              eq_refl eq_refl) as (_ & _ & Htext & _).
  exact Htext.
Defined.

Lemma conversation_lookup subs texts i sub :
  length texts = length subs →
  subs !! i = Some sub →
  ∃ t, texts !! i = Some t
    ∧ conversation subs texts !! (2 * i) = Some (user_record sub)
    ∧ conversation subs texts !! (2 * i + 1) = Some (model_record sub t).
Proof.
  revert texts i. induction subs as [|sub' subs IH];
    intros [|t' texts] i Hlen Hi; simpl in Hlen; try lia; [done|].
  destruct i as [|i]; simpl in Hi.
  - injection Hi as ->. by exists t'.
  - destruct (IH texts i) as (t & Ht & Hu & Hm); [lia|done|].
    exists t. split; [done|].
    replace (2 * S i) with (S (S (2 * i))) by lia.
    replace (S (S (2 * i)) + 1) with (S (S (2 * i + 1))) by lia.
    done.
Qed.

(** Claim C3.  After any sequence of N successful submissions from a
    successfully bootstrapped state, the store holds exactly 1 + 2*N
    records: the greeting first, then for the i-th submission its user
    record (with the submitted text) at position 1 + 2*i immediately
    followed by its model record at position 2 + 2*i.  No error is shown and
    nothing is loading. *)
Theorem successful_submissions_shape c subs :
  Forall (λ sub, succeeds (reply sub.1) = true) subs →
  let w := submit_all subs (bootstrapped c) in
  length (messages w) = 1 + 2 * length subs
  ∧ messages w !! 0
    = Some {| id := "init"; role := model;
              text := "Hello! How can I assist you today?" |}
  ∧ (∃ texts, length texts = length subs
       ∧ messages w = greeting :: conversation subs texts)
  ∧ (∀ i env userMessage, subs !! i = Some (env, userMessage) →
       ∃ t,
         messages w !! (1 + 2 * i)
         = Some {| id := toString (now_user env); role := user;
                   text := userMessage |}
         ∧ messages w !! (2 + 2 * i)
           = Some {| id := modelResponseId env; role := model; text := t |})
  ∧ error w = None
  ∧ isLoading w = false.
Proof.
  intros Hall w.
  destruct (submit_all_conversation subs (bootstrapped c) c [] [])
    as (texts & Hlen & Heq); [done..|].
  simpl in Hlen, Heq. subst w. rewrite Heq.
  split; [simpl; rewrite conversation_length by done; lia|].
  split; [done|]. split; [by exists texts|]. split.
  - intros i env um Hi.
    destruct (conversation_lookup subs texts i _ Hlen Hi) as (t & _ & Hu & Hm).
    exists t. split.
    + exact Hu.
    + replace (2 + 2 * i) with (S (2 * i + 1)) by lia. exact Hm.
  - by apply (submit_all_success_flags subs (bootstrapped c) c).
Qed.

Lemma successful_submissions_shape_witness :
  let subs :=
    [ (mkEnv 1000 1000 (Resolved (Yield "Hi" (Yield " there!" Done))), "Hello");
      (mkEnv 2000 2001 (Resolved (Yield "Fine." Done)), "How are you?") ] in
  Forall (λ sub, succeeds (reply sub.1) = true) subs
  ∧ length (messages (submit_all subs (bootstrapped (ChatSession 0)))) = 5.
Proof.
  intros subs.
  assert (Forall (λ sub, succeeds (reply sub.1) = true) subs) as Hall.
  { repeat constructor. }
  split; [exact Hall|].
  destruct (successful_submissions_shape (ChatSession 0) subs Hall)
    as (Hlen & _).
  exact Hlen.
Defined.

(** ** Frame *)

(** Claim C5.  Every store update of the streaming phase (one per fragment,
    and the overwrite on failure) keeps the number of records, keeps every
    record's id and role at its position, leaves every record whose id is
    not the placeholder id exactly as it was, and gives the records with
    that id the new text.  Across all store updates of a submission,
    including the two appends, the sequence of (id, role) pairs only ever
    grows at the end: the store is never reordered. *)
Theorem store_updates_frame env userMessage w c :
  chat w = Some c →
  let mid := modelResponseId env in
  let base :=
    messages w ++ [newUserMessage env userMessage; placeholder env] in
  let w' := after (handleSendMessage env userMessage) w in
  ∃ updates,
    store_log w'
    = store_log w
      ++ [messages w ++ [newUserMessage env userMessage]; base] ++ updates
    ∧ length updates
      = length (delivered (reply env))
        + (if succeeds (reply env) then 0 else 1)
    ∧ (∀ k prev next,
         (base :: updates) !! k = Some prev →
         updates !! k = Some next →
         ∃ t, only_text_changed mid t prev next)
    ∧ (∀ k prev next,
         (messages w
          :: [messages w ++ [newUserMessage env userMessage]; base]
          ++ updates) !! k = Some prev →
         ([messages w ++ [newUserMessage env userMessage]; base]
          ++ updates) !! k = Some next →
         keys prev `prefix_of` keys next).
Proof.
  intros Hchat mid base w'. subst w'.
  rewrite (settled_after _ _ _ _ Hchat), settled_log.
  exists (map (λ t, rewrite_text mid t base) (text_writes (reply env))).
  split; [done|]. split.
  { rewrite length_map. unfold text_writes, succeeds.
    rewrite length_app, stream_writes_length.
    by destruct (failure (reply env)). }
  assert (∀ k prev next,
            (base :: map (λ t, rewrite_text mid t base)
                       (text_writes (reply env))) !! k = Some prev →
            map (λ t, rewrite_text mid t base)
              (text_writes (reply env)) !! k = Some next →
            ∃ t, text_writes (reply env) !! k = Some t
              ∧ next = rewrite_text mid t prev) as Hstep.
  { intros k prev next. apply consecutive_updates. }
  split.
  - intros k prev next Hprev Hnext.
    destruct (Hstep k prev next Hprev Hnext) as (t & Ht & ->).
    exists t. apply rewrite_text_frame.
  - intros [|[|k]] prev next Hprev Hnext; simpl in Hprev, Hnext.
    + injection Hprev as <-. injection Hnext as <-.
      rewrite keys_app. by apply prefix_app_r.
    + injection Hprev as <-. injection Hnext as <-. subst base.
      change [newUserMessage env userMessage; placeholder env]
        with ([newUserMessage env userMessage] ++ [placeholder env]).
      rewrite app_assoc, (keys_app (_ ++ _)). by apply prefix_app_r.
    + destruct (Hstep k prev next Hprev Hnext) as (t & _ & ->).
      by rewrite rewrite_text_keys.
Qed.

Lemma store_updates_frame_witness :
  chat (bootstrapped (ChatSession 0)) = Some (ChatSession 0)
  ∧ ∃ updates,
      store_log
        (after (handleSendMessage
                  (mkEnv 1000 1000 (Resolved (Yield "Hi" (Yield " there!" Done))))
                  "Hello")
               (bootstrapped (ChatSession 0)))
      = [[greeting]]
        ++ [ [greeting] ++ [{| id := "1000"; role := user; text := "Hello" |}];
             [greeting]
             ++ [ {| id := "1000"; role := user; text := "Hello" |};
                  {| id := "model-1000"; role := model; text := "" |} ] ]
        ++ updates
      ∧ length updates = 2.
Proof.
  split; [reflexivity|].
  destruct (store_updates_frame
              (mkEnv 1000 1000 (Resolved (Yield "Hi" (Yield " there!" Done))))
              "Hello" (bootstrapped (ChatSession 0)) (ChatSession 0) eq_refl)
    as (updates & Hlog & Hlen & _).
  exists updates. split; [exact Hlog | exact Hlen].
Defined.

(** ** Ids taken from the clock *)

(** When no record of the store carries the id the placeholder is about to
    get, a submission leaves every earlier record as it was: the store grows
    by the user record and the placeholder with its final text. *)
Lemma fresh_placeholder_frame env userMessage w c :
  chat w = Some c →
  modelResponseId env ∉ map id (messages w) →
  messages (after (handleSendMessage env userMessage) w)
  = messages w
    ++ [newUserMessage env userMessage;
        with_text (placeholder env) (final_text (reply env))].
Proof.
  intros Hchat Hfresh.
  rewrite (settled_after _ _ _ _ Hchat), settled_messages, earlier_fresh; [done|].
  apply Forall_forall. intros msg Hin Heq. apply Hfresh.
  rewrite <- Heq. apply list_elem_of_fmap. by exists msg.
Qed.

(** A failing submission keeps both of its records: the user record as
    submitted and, last, the placeholder with the failure text; the store is
    two records longer than before. *)
Lemma stream_failure_store env userMessage w c e :
  chat w = Some c →
  failure (reply env) = Some e →
  let w' := after (handleSendMessage env userMessage) w in
  messages w'
  = rewrite_text (modelResponseId env) "Sorry, I encountered an error."
      (messages w)
    ++ [ {| id := toString (now_user env); role := user;
            text := userMessage |};
         {| id := "model-" +:+ toString (now_model env); role := model;
            text := "Sorry, I encountered an error." |} ]
  ∧ length (messages w') = length (messages w) + 2.
Proof.
  intros Hchat Hfail w'. subst w'.
  rewrite (settled_after _ _ _ _ Hchat), settled_messages.
  unfold earlier, touched, final_text. rewrite Hfail.
  split; [done|]. rewrite length_app, rewrite_text_length. done.
Qed.

Lemma submit_all_distinct subs : ∀ w c done,
  chat w = Some c →
  NoDup (map (λ sub, now_model sub.1) (done ++ subs)) →
  messages w
  = greeting
    :: conversation done (map (λ sub, final_text (reply sub.1)) done) →
  messages (submit_all subs w)
  = greeting
    :: conversation (done ++ subs)
         (map (λ sub, final_text (reply sub.1)) (done ++ subs)).
Proof.
  induction subs as [|[env um] subs IH]; intros w c done Hchat Hnd Hw.
  - by rewrite app_nil_r.
  - simpl. rewrite (cons_middle _ done subs), app_assoc in Hnd |- *.
    apply (IH _ c);
      [by rewrite (settled_after _ _ _ _ Hchat), settled_chat|done|].
    rewrite (fresh_placeholder_frame _ _ _ _ Hchat), Hw.
    + rewrite map_app. simpl map.
      by rewrite (conversation_snoc _ _ (env, um)) by (by rewrite length_map).
    + rewrite Hw. simpl. rewrite conversation_ids by (by rewrite length_map).
      rewrite not_elem_of_cons. split.
      * intros Heq. symmetry in Heq. by apply init_not_model_id in Heq.
      * rewrite model_id_created.
        rewrite !map_app in Hnd. apply NoDup_app in Hnd as (Hnd & _).
        apply NoDup_app in Hnd as (_ & Hdisj & _).
        intros Hin. apply (Hdisj _ Hin). simpl. by left.
Qed.

(** With pairwise different readings at line 66, every model record ends
    with the text of its own response and is never touched by another
    submission. *)
Lemma distinct_clock_conversation c subs :
  NoDup (map (λ sub, now_model sub.1) subs) →
  messages (submit_all subs (bootstrapped c))
  = greeting
    :: conversation subs (map (λ sub, final_text (reply sub.1)) subs).
Proof.
  intros Hnd. by apply (submit_all_distinct subs (bootstrapped c) c []).
Qed.

(** Claim C4.  The ids are [Date.now()] readings, so two submissions that
    read the same clock value create the same ids: after the greeting and
    two submissions at clock value 1000 the store holds "1000" twice and
    "model-1000" twice, and its ids are not pairwise different.  (Within one
    submission the two ids always differ, and both differ from "init":
    [user_id_not_model_id], [user_id_not_init], [init_not_model_id]; with
    pairwise different readings all ids differ: [ids_unique_iff].) *)
Theorem equal_clock_readings_duplicate_ids :
  let subs :=
    [ (mkEnv 1000 1000 (Resolved (Yield "a" Done)), "x");
      (mkEnv 1000 1000 (Resolved (Yield "b" Done)), "y") ] in
  let w := submit_all subs (bootstrapped (ChatSession 0)) in
  map id (messages w) = ["init"; "1000"; "model-1000"; "1000"; "model-1000"]
  ∧ ¬ NoDup (map id (messages w)).
Proof.
  intros subs w.
  assert (map id (messages w)
          = ["init"; "1000"; "model-1000"; "1000"; "model-1000"]) as Hids.
  { vm_compute. reflexivity. }
  split; [exact Hids|].
  rewrite Hids. intros Hnd.
  apply NoDup_cons in Hnd as (_ & Hnd). apply NoDup_cons in Hnd as (Hnotin & _).
  apply Hnotin. right. left.
Qed.

(** Claim C1.  A successful stream leaves the placeholder with all its
    fragments concatenated ([settled_messages]), but the finished text is
    not safe from later writes: a second submission that reads the same
    clock value gets the same placeholder id, and its updates rewrite the
    first reply too.  After the first submission the reply at position 2
    reads "a"; after the second, which streams "b", it reads "b". *)
Theorem equal_clock_readings_rewrite_finished_reply :
  let first := (mkEnv 1000 1000 (Resolved (Yield "a" Done)), "x") in
  let second := (mkEnv 1000 1000 (Resolved (Yield "b" Done)), "y") in
  let w1 := submit_all [first] (bootstrapped (ChatSession 0)) in
  let w2 := submit_all [first; second] (bootstrapped (ChatSession 0)) in
  messages w1 !! 2
  = Some {| id := "model-1000"; role := model; text := "a" |}
  ∧ isLoading w1 = false
  ∧ messages w2 !! 2
    = Some {| id := "model-1000"; role := model; text := "b" |}
  ∧ length (messages w2) = 5.
Proof. vm_compute. repeat split. Qed.

(** Claim C10.  A failing submission overwrites by id, so it also overwrites
    the finished reply of an earlier submission that read the same clock
    value: the reply "a" at position 2 reads "Sorry, I encountered an
    error." after a later submission at the same clock value is rejected.
    (The two records of the failing submission do stay, the user record
    untouched: [stream_failure_store]; with a placeholder id not yet in the
    store nothing else changes: [fresh_placeholder_frame].) *)
Theorem equal_clock_readings_failure_rewrites_earlier_reply :
  let first := (mkEnv 1000 1000 (Resolved (Yield "a" Done)), "x") in
  let second := (mkEnv 1000 1000 (Rejected "offline"), "y") in
  let w1 := submit_all [first] (bootstrapped (ChatSession 0)) in
  let w2 := submit_all [first; second] (bootstrapped (ChatSession 0)) in
  messages w1 !! 2
  = Some {| id := "model-1000"; role := model; text := "a" |}
  ∧ messages w2 !! 2
    = Some {| id := "model-1000"; role := model;
              text := "Sorry, I encountered an error." |}
  ∧ messages w2 !! 3 = Some {| id := "1000"; role := user; text := "y" |}
  ∧ messages w2 !! 4
    = Some {| id := "model-1000"; role := model;
              text := "Sorry, I encountered an error." |}.
Proof. vm_compute. repeat split. Qed.

(** * Further properties *)

(** ** Sequences of submissions, whatever their outcome *)

Lemma submit_all_app subs1 subs2 w :
  submit_all (subs1 ++ subs2) w = submit_all subs2 (submit_all subs1 w).
Proof.
  revert w. induction subs1 as [|[env um] subs1 IH]; intros w; [done|].
  simpl. apply IH.
Qed.

Lemma settled_requests env userMessage w :
  requests (settled env userMessage w) = requests w ++ [userMessage].
Proof. unfold settled. by destruct (failure _). Qed.

Lemma settled_console env userMessage w :
  console (settled env userMessage w)
  = console w ++ option_list (failure (reply env)).
Proof.
  unfold settled. destruct (failure _); simpl; [done|by rewrite app_nil_r].
Qed.

Lemma settled_flags env userMessage w :
  isLoading (settled env userMessage w) = false
  ∧ error (settled env userMessage w)
    = if succeeds (reply env) then None else Some stream_failure_message.
Proof. unfold settled, succeeds. by destruct (failure _). Qed.

(** The thrown values of the failing submissions, in submission order. *)
Lemma submit_all_outside subs : ∀ w c,
  chat w = Some c →
  requests (submit_all subs w) = requests w ++ map snd subs
  ∧ console (submit_all subs w)
    = console w ++ omap (λ sub, failure (reply sub.1)) subs.
Proof.
  induction subs as [|[env um] subs IH]; intros w c Hchat.
  - by rewrite !app_nil_r.
  - rewrite (submit_all_cons _ _ _ _ _ Hchat).
    destruct (IH (settled env um w) c) as (Hreq & Hcon);
      [by rewrite settled_chat|].
    rewrite Hreq, Hcon, settled_requests, settled_console.
    rewrite <- !app_assoc. split; [done|]. f_equal. simpl.
    by destruct (failure (reply env)).
Qed.

(** Every submission made with a handle issues exactly one request, with the
    submitted text, whether it then succeeds or fails: after any sequence of
    submissions the requests sent are the submitted texts in order, none
    repeated and none left out. *)
Theorem requests_follow_submissions c subs :
  requests (submit_all subs (bootstrapped c)) = map snd subs.
Proof.
  by destruct (submit_all_outside subs (bootstrapped c) c eq_refl) as (-> & _).
Qed.

(** [console.error] receives exactly the values thrown by the failing
    submissions, in order; a successful submission logs nothing. *)
Theorem console_records_failures c subs :
  console (submit_all subs (bootstrapped c))
  = omap (λ sub, failure (reply sub.1)) subs.
Proof.
  by destruct (submit_all_outside subs (bootstrapped c) c eq_refl) as (_ & ->).
Qed.

Lemma submit_all_last_flags subs env userMessage w c :
  chat w = Some c →
  let w' := submit_all (subs ++ [(env, userMessage)]) w in
  isLoading w' = false
  ∧ error w'
    = if succeeds (reply env) then None else Some stream_failure_message.
Proof.
  intros Hchat w'. subst w'. rewrite submit_all_app.
  assert (chat (submit_all subs w) = Some c) as Hchat'
    by (by rewrite submit_all_chat).
  rewrite (submit_all_cons _ _ _ _ _ Hchat'). simpl. apply settled_flags.
Qed.

(** The error flag has one slot and every submission rewrites it: after a
    sequence of submissions it tells the outcome of the last one only.  A
    success clears the message left by an earlier failure, a failure shows
    the generic message; the loading flag is off either way. *)
Theorem flags_follow_last_submission c subs env userMessage :
  let w := submit_all (subs ++ [(env, userMessage)]) (bootstrapped c) in
  isLoading w = false
  ∧ error w
    = if succeeds (reply env)
      then None
      else Some "An error occurred while getting a response. Please try again.".
Proof. by apply (submit_all_last_flags subs env userMessage _ c). Qed.

(** User records and the greeting are never rewritten.  After any sequence
    of submissions, failed or not and whatever the clock readings (equal
    ones included), the store has 1 + 2*N records, the greeting is intact at
    position 0, and the i-th submitted text stands unchanged in a user
    record at position 1 + 2*i, followed by a model record. *)
Theorem user_records_are_permanent c subs :
  let w := submit_all subs (bootstrapped c) in
  length (messages w) = 1 + 2 * length subs
  ∧ messages w !! 0 = Some greeting
  ∧ ∀ i env userMessage, subs !! i = Some (env, userMessage) →
      messages w !! (1 + 2 * i)
      = Some {| id := toString (now_user env); role := user;
                text := userMessage |}
      ∧ role <$> messages w !! (2 + 2 * i) = Some model.
Proof.
  intros w.
  destruct (submit_all_conversation subs (bootstrapped c) c [] [])
    as (texts & Hlen & Heq); [done..|].
  simpl in Hlen, Heq. subst w. rewrite Heq.
  split; [simpl; rewrite conversation_length by done; lia|].
  split; [done|].
  intros i env um Hi.
  destruct (conversation_lookup subs texts i _ Hlen Hi) as (t & _ & Hu & Hm).
  split; [exact Hu|].
  replace (2 + 2 * i) with (S (2 * i + 1)) by lia.
  assert ((greeting :: conversation subs texts) !! S (2 * i + 1)
          = Some (model_record (env, um) t)) as -> by exact Hm.
  done.
Qed.

(** ** The streaming loop *)

Lemma written_settled env userMessage w :
  let base :=
    messages w ++ [newUserMessage env userMessage; placeholder env] in
  written w (settled env userMessage w)
  = [messages w ++ [newUserMessage env userMessage]; base]
    ++ map (λ t, rewrite_text (modelResponseId env) t base)
           (text_writes (reply env)).
Proof.
  intros base. unfold written. rewrite settled_log.
  by rewrite drop_app_length.
Qed.

Lemma placeholder_text_before env userMessage before :
  text_at (S (length before))
    (before ++ [newUserMessage env userMessage; placeholder env])
  = Some "".
Proof.
  unfold text_at. rewrite lookup_app_r by lia.
  by replace (S (length before) - length before) with 1 by lia.
Qed.

(** The loop writes nothing but the store.  Whether the stream completes or
    raises, the handle, both flags, the requests and the console are as they
    were; the store keeps its records' ids and roles in place; one store
    value is written per fragment that arrived; and the loop throws exactly
    what the stream raised, after the fragments before it were applied. *)
Theorem for_await_writes_only_store mid full stream w :
  let w' := after (for_await mid full stream) w in
  chat w' = chat w
  ∧ isLoading w' = isLoading w
  ∧ error w' = error w
  ∧ requests w' = requests w
  ∧ console w' = console w
  ∧ keys (messages w') = keys (messages w)
  ∧ length (written w w') = length (fragments stream)
  ∧ fst (for_await mid full stream w)
    = match raised stream with
      | None => Returned ()
      | Some e => Thrown e
      end.
Proof.
  intros w'. subst w'. unfold after, written. rewrite for_await_run.
  cbn [fst snd]. unfold streamed. cbn [chat isLoading error requests console
                                        messages store_log].
  repeat split.
  - destruct (last _) as [l|] eqn:Hlast; simpl; [|done].
    apply last_Some_elem_of, list_elem_of_fmap in Hlast.
    destruct Hlast as (t & -> & _). apply rewrite_text_keys.
  - by rewrite drop_app_length, length_map, loop_writes_length.
Qed.

(** The [k]-th updater to run (counting the [queued] ones first) reads the
    accumulator after at least its own fragment has been added, and possibly
    further ones. *)
Lemma loop_writes_lookup full queued s k t :
  loop_writes full queued s !! k = Some t →
  ∃ j, (k + 1 ≤ queued + j)%nat ∧ (j ≤ length (fragments s))%nat
    ∧ t = full +:+ concat_all (take j (fragments s)).
Proof.
  revert full queued k.
  induction s as [|f rest IH|e|rest IH]; intros full queued k Hk; simpl in *.
  - apply lookup_replicate in Hk as (-> & Hlt).
    exists 0. split; [lia|]. split; [lia|]. by rewrite append_nil_r.
  - destruct (IH _ _ _ Hk) as (j & Hj & Hle & ->).
    exists (S j). split; [lia|]. split; [lia|].
    simpl. unfold concat_all. simpl. by rewrite append_assoc.
  - apply lookup_replicate in Hk as (-> & Hlt).
    exists 0. split; [lia|]. split; [lia|]. by rewrite append_nil_r.
  - apply lookup_app_Some in Hk as [Hk|(Hge & Hk)].
    + apply lookup_replicate in Hk as (-> & Hlt).
      exists 0. split; [lia|]. split; [lia|]. by rewrite take_0, append_nil_r.
    + rewrite length_replicate in Hge, Hk.
      destruct (IH _ _ _ Hk) as (j & Hj & Hle & ->).
      exists j. split; [lia|]. done.
Qed.

(** Each text written extends the one written before it, and the first one
    extends the accumulator the loop started from. *)
Lemma loop_writes_grow full queued s k t1 t2 :
  (full :: loop_writes full queued s) !! k = Some t1 →
  loop_writes full queued s !! k = Some t2 →
  ∃ suffix, t2 = t1 +:+ suffix.
Proof.
  revert full queued k t1 t2.
  induction s as [|f rest IH|e|rest IH]; intros full queued k t1 t2 H1 H2;
    simpl in *.
  - apply lookup_replicate in H2 as (-> & Hlt).
    change (full :: replicate queued full) with (replicate (S queued) full)
      in H1.
    apply lookup_replicate in H1 as (-> & _).
    exists "". by rewrite append_nil_r.
  - destruct k as [|k]; simpl in H1.
    + injection H1 as <-.
      destruct (IH (full +:+ f) (S queued) 0 _ _ eq_refl H2) as (suffix & ->).
      exists (f +:+ suffix). by rewrite append_assoc.
    + by apply (IH (full +:+ f) (S queued) (S k)).
  - apply lookup_replicate in H2 as (-> & Hlt).
    change (full :: replicate queued full) with (replicate (S queued) full)
      in H1.
    apply lookup_replicate in H1 as (-> & _).
    exists "". by rewrite append_nil_r.
  - assert (full :: replicate queued full ++ loop_writes full 0 rest
            = replicate queued full ++ full :: loop_writes full 0 rest) as Heq.
    { change (full :: replicate queued full ++ loop_writes full 0 rest)
        with (replicate (S queued) full ++ loop_writes full 0 rest).
      rewrite replicate_S_end, <- app_assoc. done. }
    rewrite Heq in H1.
    apply lookup_app_Some in H2 as [H2|(Hge & H2)].
    + apply lookup_replicate in H2 as (-> & Hlt).
      rewrite lookup_app_l in H1 by (by rewrite length_replicate).
      apply lookup_replicate in H1 as (-> & _).
      exists "". by rewrite append_nil_r.
    + rewrite lookup_app_r in H1 by done.
      by apply (IH full 0 (k - length (replicate queued full))).
Qed.

(** With a flush after every chunk the updaters write the running
    concatenations, one by one. *)
Lemma loop_writes_prompt full s :
  prompt s = true →
  loop_writes full 0 s = cumulative full (fragments s).
Proof.
  revert full. induction s as [|f rest IH|e|rest IH]; intros full Hp; simpl.
  - done.
  - destruct rest as [|f' rest'|e|rest']; simpl in *; try done.
    f_equal. by apply IH.
  - done.
  - by apply IH.
Qed.

(** What the updaters of a stream write into the placeholder.  One store
    value is written per fragment.  The [k]-th of them (counting from 0)
    gives the placeholder the concatenation of the first [j] fragments for
    some [j] greater than [k]: its own fragment is always included, and
    later ones are too when they were added to [fullResponse] before React
    ran the updater.  The submission of a successful stream ends with all
    fragments concatenated. *)
Theorem streamed_texts_are_fragment_prefixes env userMessage w c :
  chat w = Some c →
  succeeds (reply env) = true →
  let fs := delivered (reply env) in
  let p := S (length (messages w)) in
  let w' := after (handleSendMessage env userMessage) w in
  length (written w w') = 2 + length fs
  ∧ (∀ k store, written w w' !! (2 + k) = Some store →
       ∃ j, (k < j)%nat ∧ (j ≤ length fs)%nat
         ∧ text_at p store = Some (concat_all (take j fs)))
  ∧ text_at p (messages w') = Some (concat_all fs).
Proof.
  intros Hchat Hok fs p w'. subst w' p.
  rewrite (settled_after _ _ _ _ Hchat), written_settled.
  unfold succeeds in Hok.
  destruct (failure (reply env)) as [e|] eqn:Hfail; [done|].
  unfold text_writes. rewrite Hfail, app_nil_r.
  split; [|split].
  - simpl. by rewrite length_map, stream_writes_length.
  - intros k store Hk. simpl in Hk.
    apply list_lookup_fmap_Some in Hk as (t & -> & Ht).
    rewrite placeholder_text_at.
    destruct (reply env) as [e|s]; [done|]. simpl in Ht.
    destruct (loop_writes_lookup _ _ _ _ _ Ht) as (j & Hj & Hle & ->).
    exists j. split; [lia|]. done.
  - rewrite settled_messages. unfold final_text. rewrite Hfail.
    unfold text_at.
    rewrite lookup_app_r by (rewrite earlier_length; lia).
    rewrite earlier_length.
    by replace (S (length (messages w)) - length (messages w)) with 1 by lia.
Qed.

Lemma streamed_texts_are_fragment_prefixes_witness :
  let env := mkEnv 1000 1000 (Resolved (Yield "Hi" (Yield " there!" Done))) in
  let w := bootstrapped (ChatSession 0) in
  let w' := after (handleSendMessage env "Hello") w in
  chat w = Some (ChatSession 0)
  ∧ succeeds (reply env) = true
  ∧ length (written w w') = 4
  ∧ text_at 2 (messages w') = Some "Hi there!".
Proof.
  intros env w w'. split; [reflexivity|]. split; [reflexivity|].
  destruct (streamed_texts_are_fragment_prefixes env "Hello" w (ChatSession 0)
              eq_refl eq_refl) as (Hlen & _ & Hfinal).
  split; [exact Hlen | exact Hfinal].
Defined.

(** While fragments arrive the placeholder's text only grows: every store
    value written by an updater of the loop gives the placeholder the text
    of the store value written before it, followed by zero or more further
    characters, starting from the empty text of the placeholder.  This
    holds for the fragments of a stream that raises later as well. *)
Theorem streamed_text_only_grows env userMessage w c k prev next :
  chat w = Some c →
  let w' := after (handleSendMessage env userMessage) w in
  let p := S (length (messages w)) in
  k < length (delivered (reply env)) →
  written w w' !! (1 + k) = Some prev →
  written w w' !! (2 + k) = Some next →
  ∃ t suffix,
    text_at p prev = Some t ∧ text_at p next = Some (t +:+ suffix).
Proof.
  intros Hchat w' p Hk Hprev Hnext. subst w' p.
  rewrite (settled_after _ _ _ _ Hchat), written_settled in Hprev, Hnext.
  simpl in Hprev, Hnext.
  apply list_lookup_fmap_Some in Hnext as (t2 & -> & Ht2).
  unfold text_writes in Ht2.
  rewrite lookup_app_l in Ht2 by (by rewrite stream_writes_length).
  rewrite placeholder_text_at.
  assert (∃ t1, text_at (S (length (messages w))) prev = Some t1
                ∧ ("" :: stream_writes (reply env)) !! k = Some t1)
    as (t1 & HText & Ht1).
  { destruct k as [|k]; simpl in Hprev.
    - injection Hprev as <-. exists "".
      split; [apply placeholder_text_before|done].
    - apply list_lookup_fmap_Some in Hprev as (t1 & -> & Ht1).
      unfold text_writes in Ht1.
      rewrite lookup_app_l in Ht1 by (rewrite stream_writes_length; lia).
      exists t1. split; [apply placeholder_text_at|done]. }
  destruct (reply env) as [e|s]; [done|]. simpl in Ht1, Ht2.
  destruct (loop_writes_grow _ _ _ _ _ _ Ht1 Ht2) as (suffix & ->).
  by exists t1, suffix.
Qed.

Lemma streamed_text_only_grows_witness :
  let env :=
    mkEnv 1000 1000 (Resolved (Yield "Hi" (Flush (Yield " there!" Done)))) in
  let w := bootstrapped (ChatSession 0) in
  let w' := after (handleSendMessage env "Hello") w in
  let hi :=
    [ greeting;
      {| id := "1000"; role := user; text := "Hello" |};
      {| id := "model-1000"; role := model; text := "Hi" |} ] in
  let hi_there :=
    [ greeting;
      {| id := "1000"; role := user; text := "Hello" |};
      {| id := "model-1000"; role := model; text := "Hi there!" |} ] in
  chat w = Some (ChatSession 0)
  ∧ 1 < length (delivered (reply env))
  ∧ written w w' !! 2 = Some hi
  ∧ written w w' !! 3 = Some hi_there
  ∧ ∃ t suffix,
      text_at 2 hi = Some t ∧ text_at 2 hi_there = Some (t +:+ suffix).
Proof.
  intros env w w' hi hi_there.
  assert (1 < length (delivered (reply env))) as Hk by (simpl; lia).
  assert (written w w' !! 2 = Some hi) as Hprev by (vm_compute; reflexivity).
  assert (written w w' !! 3 = Some hi_there) as Hnext
    by (vm_compute; reflexivity).
  split; [reflexivity|]. split; [exact Hk|].
  split; [exact Hprev|]. split; [exact Hnext|].
  exact (streamed_text_only_grows env "Hello" w (ChatSession 0) 1 hi hi_there
           eq_refl Hk Hprev Hnext).
Defined.

(** If React runs the updater of every iteration before the next chunk
    arrives, the texts written into the placeholder are exactly the running
    concatenations of the fragments: the first fragment, the first two, and
    so on, none skipped and none repeated. *)
Theorem prompt_flushes_write_every_snapshot env userMessage w c s :
  chat w = Some c →
  reply env = Resolved s →
  prompt s = true →
  let p := S (length (messages w)) in
  let w' := after (handleSendMessage env userMessage) w in
  ∀ k, k < length (fragments s) →
    ∃ store, written w w' !! (2 + k) = Some store
      ∧ text_at p store = Some (concat_all (take (S k) (fragments s))).
Proof.
  intros Hchat Hreply Hprompt p w' k Hk. subst w' p.
  rewrite (settled_after _ _ _ _ Hchat), written_settled.
  unfold text_writes. rewrite Hreply. simpl stream_writes.
  rewrite (loop_writes_prompt _ _ Hprompt).
  exists (rewrite_text (modelResponseId env)
            (concat_all (take (S k) (fragments s)))
            (messages w ++ [newUserMessage env userMessage; placeholder env])).
  split; [|apply placeholder_text_at].
  simpl. rewrite list_lookup_fmap.
  rewrite lookup_app_l by (by rewrite cumulative_length).
  by rewrite cumulative_lookup.
Qed.

Lemma prompt_flushes_write_every_snapshot_witness :
  let s := Yield "Hi" (Flush (Yield " there!" Done)) in
  let env := mkEnv 1000 1000 (Resolved s) in
  let w := bootstrapped (ChatSession 0) in
  let w' := after (handleSendMessage env "Hello") w in
  chat w = Some (ChatSession 0)
  ∧ reply env = Resolved s
  ∧ prompt s = true
  ∧ 0 < length (fragments s)
  ∧ ∃ store, written w w' !! 2 = Some store
      ∧ text_at 2 store = Some (concat_all (take 1 (fragments s))).
Proof.
  intros s env w w'.
  split; [reflexivity|]. split; [reflexivity|]. split; [reflexivity|].
  split; [simpl; lia|].
  apply (prompt_flushes_write_every_snapshot env "Hello" w (ChatSession 0) s
           eq_refl eq_refl eq_refl 0).
  simpl. lia.
Defined.

(** ** Bootstrap, run from any state *)

(** A bootstrap in which [startChat()] returns sets the store to exactly the
    greeting, whatever the store held: it does not append, so running the
    effect again (with a new handle) leaves one greeting, not two, and the
    handle of the last run.  It never touches the error flag: a message set
    by an earlier, failed run stays. *)
Theorem bootstrap_resets_store w c c' :
  let w1 := after (bootstrap (Returned c)) w in
  let w2 := after (bootstrap (Returned c')) w1 in
  messages w1 = [greeting]
  ∧ chat w1 = Some c
  ∧ error w1 = error w
  ∧ isLoading w1 = isLoading w
  ∧ console w1 = console w
  ∧ messages w2 = [greeting]
  ∧ chat w2 = Some c'
  ∧ ∀ e, error (after (bootstrap (Returned c)) (after (bootstrap (Thrown e)) w))
         = Some bootstrap_failure_message.
Proof. repeat split. Qed.

(** ** What is shown *)

Lemma last_is_user_snoc store msg :
  last_is_user (store ++ [msg])
  = match role msg with user => true | model => false end.
Proof. unfold last_is_user. by rewrite last_snoc. Qed.

Lemma last_is_user_placeholder env userMessage t before :
  last_is_user
    (before ++ [newUserMessage env userMessage; with_text (placeholder env) t])
  = false.
Proof.
  change [newUserMessage env userMessage; with_text (placeholder env) t]
    with ([newUserMessage env userMessage] ++ [with_text (placeholder env) t]).
  by rewrite app_assoc, last_is_user_snoc.
Qed.

Lemma last_is_user_settled env userMessage w :
  last_is_user (messages (settled env userMessage w)) = false.
Proof. rewrite settled_messages. apply last_is_user_placeholder. Qed.

(** The typing indicator of line 141 needs a store that ends with a user
    record while the loading flag is on.  A submission writes such a store
    exactly once, between its two appends (lines 64 and 68, which run
    without an [await] between them).  Every store it writes from the
    placeholder append on, through each fragment update and the overwrite
    on failure, ends with the model placeholder, so the indicator is absent
    there whatever the loading flag is; it is absent at the end too. *)
Theorem typing_indicator_window env userMessage w c :
  chat w = Some c →
  let w' := after (handleSendMessage env userMessage) w in
  written w w' !! 0 = Some (messages w ++ [newUserMessage env userMessage])
  ∧ typing_indicator true (messages w ++ [newUserMessage env userMessage])
    = [TypingIndicator]
  ∧ (∀ k store loading,
       written w w' !! S k = Some store →
       typing_indicator loading store = [])
  ∧ typing_indicator (isLoading w') (messages w') = [].
Proof.
  intros Hchat w'. subst w'.
  rewrite (settled_after _ _ _ _ Hchat), written_settled.
  split; [done|]. split.
  { unfold typing_indicator. by rewrite last_is_user_snoc. }
  split.
  - intros k store loading Hk. unfold typing_indicator.
    assert (last_is_user store = false) as ->; [|by rewrite andb_false_r].
    destruct k as [|k]; simpl in Hk.
    + injection Hk as <-.
      apply (last_is_user_placeholder env userMessage "" (messages w)).
    + apply list_lookup_fmap_Some in Hk as (t & -> & _).
      rewrite rewrite_base. apply last_is_user_placeholder.
  - unfold typing_indicator.
    by rewrite last_is_user_settled, andb_false_r.
Qed.

Lemma typing_indicator_window_witness :
  let env := mkEnv 1000 1000 (Resolved (Yield "Hi" Done)) in
  let w := bootstrapped (ChatSession 0) in
  let w' := after (handleSendMessage env "Hello") w in
  chat w = Some (ChatSession 0)
  ∧ written w w' !! 0
    = Some [greeting; {| id := "1000"; role := user; text := "Hello" |}]
  ∧ typing_indicator (isLoading w') (messages w') = [].
Proof.
  intros env w w'. split; [reflexivity|].
  destruct (typing_indicator_window env "Hello" w (ChatSession 0) eq_refl)
    as (Hfirst & _ & _ & Hend).
  split; [exact Hfirst | exact Hend].
Defined.

Lemma submit_all_no_handle subs w :
  chat w = None → submit_all subs w = w.
Proof.
  intros Hchat. induction subs as [|[env um] subs IH]; [done|].
  simpl. unfold after, handleSendMessage. by rewrite Hchat.
Qed.

(** The states the component can be in between operations: a bootstrap,
    whatever [startChat()] did, followed by any submissions. *)
Lemma error_values outcome subs :
  let w := submit_all subs (after (bootstrap outcome) initial) in
  error w = None
  ∨ error w = Some bootstrap_failure_message
  ∨ error w = Some stream_failure_message.
Proof.
  intros w. subst w. destruct outcome as [c|e].
  - destruct subs as [|sub subs _] using rev_ind; [by left|].
    destruct sub as [env um].
    destruct (submit_all_last_flags subs env um (bootstrapped c) c eq_refl)
      as (_ & Herr).
    unfold bootstrapped in Herr. rewrite Herr.
    destruct (succeeds (reply env)); auto.
  - rewrite submit_all_no_handle by done. right. by left.
Qed.

(** The banner of lines 142-146 is guarded by the truthiness of the error
    flag, which is false for the empty string as well as for [null].  In
    every state between operations the flag is [null] or one of the two
    fixed, non-empty messages, so the banner is shown exactly when the flag
    is set, with the flag's text. *)
Theorem banner_shown_iff_error_set outcome subs :
  let w := submit_all subs (after (bootstrap outcome) initial) in
  (error w = None
   ∨ error w
     = Some "Failed to initialize the chat service. Please check your API key."
   ∨ error w
     = Some "An error occurred while getting a response. Please try again.")
  ∧ error_banner (error w)
    = match error w with Some e => [ErrorBanner e] | None => [] end.
Proof.
  intros w. pose proof (error_values outcome subs) as Hvals.
  split; [exact Hvals|].
  fold w in Hvals. destruct Hvals as [->|[->| ->]]; reflexivity.
Qed.

(** What is on screen after a bootstrap and at least one submission: one
    [ChatMessage] per record of the store in store order, each keyed by its
    record's id; no typing indicator; the generic banner if the last
    submission failed and no banner if it succeeded; and an input that is
    not told to be loading. *)
Theorem view_after_submissions c subs env userMessage :
  let w := submit_all (subs ++ [(env, userMessage)]) (bootstrapped c) in
  render w
  = {| children :=
         map (λ msg, ChatMessage (id msg) msg) (messages w)
         ++ (if succeeds (reply env)
             then []
             else [ErrorBanner stream_failure_message]);
       input_isLoading := false |}
  ∧ length (messages w) = 3 + 2 * length subs.
Proof.
  intros w.
  destruct (submit_all_last_flags subs env userMessage (bootstrapped c) c
              eq_refl) as (Hload & Herr).
  fold w in Hload, Herr. split.
  - unfold render, typing_indicator. rewrite Hload, Herr. simpl.
    by destruct (succeeds (reply env)).
  - subst w.
    destruct (submit_all_conversation (subs ++ [(env, userMessage)])
                (bootstrapped c) c [] []) as (texts & Hlen & Heq); [done..|].
    simpl in Hlen, Heq. rewrite Heq. simpl.
    rewrite conversation_length by done. rewrite length_app. simpl. lia.
Qed.

(** ** Concrete instances *)

Lemma distinct_clock_conversation_witness :
  let subs :=
    [ (mkEnv 1000 1000 (Resolved (Yield "Hi" (Yield " there!" Done))), "Hello");
      (mkEnv 2000 2001 (Rejected "offline"), "Again") ] in
  NoDup (map (λ sub, now_model sub.1) subs)
  ∧ messages (submit_all subs (bootstrapped (ChatSession 0)))
    = [ greeting;
        {| id := "1000"; role := user; text := "Hello" |};
        {| id := "model-1000"; role := model; text := "Hi there!" |};
        {| id := "2000"; role := user; text := "Again" |};
        {| id := "model-2001"; role := model;
           text := "Sorry, I encountered an error." |} ].
Proof.
  intros subs.
  assert (NoDup (map (λ sub, now_model sub.1) subs)) as Hnd.
  { simpl. apply NoDup_cons. split; [|apply NoDup_singleton].
    rewrite list_elem_of_singleton. lia. }
  split; [exact Hnd|].
  rewrite (distinct_clock_conversation (ChatSession 0) subs Hnd).
  vm_compute. reflexivity.
Defined.

Lemma stream_failure_store_witness :
  let env := mkEnv 1000 1000 (Resolved (Yield "f1" (Raise "network"))) in
  let w := bootstrapped (ChatSession 0) in
  chat w = Some (ChatSession 0)
  ∧ failure (reply env) = Some "network"
  ∧ messages (after (handleSendMessage env "X") w)
    = [ greeting;
        {| id := "1000"; role := user; text := "X" |};
        {| id := "model-1000"; role := model;
           text := "Sorry, I encountered an error." |} ]
  ∧ length (messages (after (handleSendMessage env "X") w)) = 3.
Proof.
  intros env w. split; [reflexivity|]. split; [reflexivity|].
  destruct (stream_failure_store env "X" w (ChatSession 0) "network"
              eq_refl eq_refl) as (Hstore & Hlen).
  split; [|exact Hlen].
  rewrite Hstore. vm_compute. reflexivity.
Defined.
